(** * Scheduling groups (seastar/core/scheduling.hh)

    A shallow embedding of the inline code of [scheduling.hh]: the
    [scheduling_group] identity, the shard-local current-group cell, and
    the four overloads of [make_scheduling_group_key_config] with the
    type-erased constructor and destructor closures they store. *)

From Stdlib Require Import ZArith List Lia Bool.
From stdpp Require Import base option list gmap.

Local Open Scope Z_scope.

(** ** Machine integers

    [unsigned] is a 32-bit and [size_t] a 64-bit unsigned integer; both are
    carried by [Z].  The header does no arithmetic on them; the only
    conversion is the widening [unsigned -> size_t] in [std::hash]. *)

Definition unsigned_range (z : Z) : Prop := 0 <= z < 2 ^ 32.

Definition size_t_range (z : Z) : Prop := 0 <= z < 2 ^ 64.

(** Conversion of an integer to [size_t]: reduction modulo 2^64. *)
Definition to_size_t (z : Z) : Z := z mod 2 ^ 64.

(** [constexpr unsigned max_scheduling_groups() { return 16; }] *)
Definition max_scheduling_groups : Z := 16.

(** ** The identity type

    [class scheduling_group { unsigned _id; ... }]. *)
Record scheduling_group : Type := scheduling_group_of_id { _id : Z }.

(** [constexpr scheduling_group() noexcept : _id(0) {}] *)
Definition scheduling_group_ctor : scheduling_group := scheduling_group_of_id 0.

(** [bool operator==(scheduling_group x) const { return _id == x._id; }] *)
Definition op_eq (self x : scheduling_group) : bool := _id self =? _id x.

(** [bool operator!=(scheduling_group x) const { return _id != x._id; }] *)
Definition op_ne (self x : scheduling_group) : bool := negb (_id self =? _id x).

(** [bool is_main() const { return _id == 0; }] *)
Definition is_main (self : scheduling_group) : bool := _id self =? 0.

(** [inline scheduling_group default_scheduling_group()] *)
Definition default_scheduling_group : scheduling_group := scheduling_group_ctor.

(** ** Shard-local storage

    [static thread_local scheduling_group sg;] gives every shard (thread)
    a cell of its own, constant-initialised by the default constructor.
    The store maps a shard to the value last written to its cell; a shard
    with no entry still holds the initial value. *)
Abbreviation tls := (gmap nat scheduling_group).

(** A pointer to the current-group cell of one shard. *)
Inductive sg_ptr : Type := tls_sg (shard : nat).

(** [*p] read: the cell's value. *)
Definition sg_load (p : sg_ptr) (st : tls) : scheduling_group :=
  match p with tls_sg shard => default scheduling_group_ctor (st !! shard) end.

(** Modelled from the spec: the write [*p = sg] through the pointer.  The
    header never writes the cell; the dispatcher (reactor, not in this
    file) "sets it when it begins executing a unit of work tagged with a
    given group, and restores the previous value". *)
Definition sg_store (p : sg_ptr) (sg : scheduling_group) (st : tls) : tls :=
  match p with tls_sg shard => <[shard := sg]> st end.

(** A run of dispatcher writes, oldest first. *)
Definition dispatch (writes : list (nat * scheduling_group)) (st : tls) : tls :=
  foldl (fun s w => sg_store (tls_sg w.1) w.2 s) st writes.

Module internal.

(** [unsigned scheduling_group_index(scheduling_group sg) { return sg._id; }] *)
Definition scheduling_group_index (sg : scheduling_group) : Z := _id sg.

(** [scheduling_group scheduling_group_from_index(unsigned index)].  The
    parameter is an [unsigned]: the function is the code's at an [index] in
    [unsigned_range], the guard the theorems about it carry. *)
Definition scheduling_group_from_index (index : Z) : scheduling_group :=
  scheduling_group_of_id index.

(** [scheduling_group* current_scheduling_group_ptr()], called on [shard]. *)
Definition current_scheduling_group_ptr (shard : nat) : sg_ptr := tls_sg shard.

End internal.

(** [scheduling_group current_scheduling_group()], called on [shard]. *)
Definition current_scheduling_group (shard : nat) (st : tls) : scheduling_group :=
  sg_load (internal.current_scheduling_group_ptr shard) st.

(** [bool scheduling_group::active() const], called on [shard]. *)
Definition active (self : scheduling_group) (shard : nat) (st : tls) : bool :=
  op_eq self (current_scheduling_group shard st).

Module std.

(** [size_t hash<scheduling_group>::operator()(scheduling_group sg) const] *)
Definition hash (sg : scheduling_group) : Z :=
  to_size_t (internal.scheduling_group_index sg).

End std.

(** ** Raw storage

    The storage a [void*] points into: one byte value per address. *)
Abbreviation memory := (gmap Z Z).

(** Writing a run of bytes from address [p] upwards. *)
Fixpoint write_bytes (p : Z) (bs : list Z) (m : memory) : memory :=
  match bs with
  | [] => m
  | b :: bs' => write_bytes (p + 1) bs' (<[p := b]> m)
  end.

(** Reading [n] bytes from address [p] upwards; [None] when one of them
    was never written. *)
Fixpoint read_bytes (p : Z) (n : nat) (m : memory) : option (list Z) :=
  match n with
  | O => Some []
  | S k =>
      match m !! p, read_bytes (p + 1) k m with
      | Some b, Some bs => Some (b :: bs)
      | _, _ => None
      end
  end.

(** [memset(s, c, n)]: [n] copies of [c] converted to [unsigned char]. *)
Definition memset (s c n : Z) (m : memory) : memory :=
  write_bytes s (replicate (Z.to_nat n) (c mod 256)) m.

(** ** Types as template arguments

    What the templates use of a type [T]: [sizeof(T)], [alignof(T)],
    [std::is_scalar_v<T>], and the bytes of a value of the type. *)
Class CxxType (T : Type) : Type := {
  sizeof : Z;
  alignof : Z;
  is_scalar : bool;
  object_repr : T -> list Z;
  value_of : list Z -> T
}.
Arguments sizeof T {_}.
Arguments alignof T {_}.
Arguments is_scalar T {_}.
Arguments value_of T {_} _.

(** Implicit conversion of an [InitialVal] to [T]. *)
Class Convertible (A B : Type) : Type := convert : A -> B.

#[export] Instance convert_same (A : Type) : Convertible A A := fun a => a.

(** [T(args...)]: the value a constructor call builds from [Args]. *)
Class Constructible (T Args : Type) : Type := construct : Args -> T.

(** [static_cast<T*>(p)->~T()]: what [T]'s destructor does to the storage. *)
Class Destructible (T : Type) : Type := destroy_at : Z -> memory -> memory.
Arguments destroy_at T {_} _ _.

Definition store (T : Type) `{CxxType T} (p : Z) (v : T) (m : memory) : memory :=
  write_bytes p (object_repr v) m.

Definition load (T : Type) `{CxxType T} (p : Z) (m : memory) : option T :=
  value_of T <$> read_bytes p (Z.to_nat (sizeof T)) m.

(** A value whose bytes fill [sizeof(T)] and read back as the value. *)
Definition faithful_repr (T : Type) `{CxxType T} (v : T) : Prop :=
  length (object_repr v) = Z.to_nat (sizeof T) /\ value_of T (object_repr v) = v.

(** [new (p) T(v)] *)
Definition placement_new (T : Type) `{CxxType T} (p : Z) (v : T) (m : memory) : memory :=
  store T p v m.

(** [std::make_tuple(args...)]: the argument pack, captured by value. *)
Definition make_tuple {Args : Type} (args : Args) : Args := args.

(** [std::make_from_tuple<T>(args)] *)
Definition make_from_tuple (T : Type) {Args : Type} `{Constructible T Args}
    (args : Args) : T :=
  construct args.

(** ** Expressions of a closure body

    What is decided about an expression when the template is instantiated
    (its value category, or that it is ill-formed) and what a well-formed
    expression denotes when the closure runs. *)
Inductive diagnostic : Type :=
| indirection_through_void_pointer
| assignment_to_scalar_prvalue.

(** The static type of a pointer: [void*], or a pointer to an object type. *)
Inductive pointee : Type := void_pointee | object_pointee.

Inductive category : Type := lvalue_category | prvalue_category.

(** An lvalue denotes the address of the storage it designates, a prvalue
    the bytes of a temporary ([None]: indeterminate). *)
Definition denotes (c : category) : Type :=
  match c with
  | lvalue_category => Z
  | prvalue_category => option (list Z)
  end.

(** A well-formed expression over the closure's pointer parameter and the
    storage. *)
Record expr : Type := { cat : category; denote : Z -> memory -> denotes cat }.

(** [*p] on the closure's parameter [p]: the operand must point to an
    object type; the result is the lvalue at [p]. *)
Definition deref (pt : pointee) : diagnostic + expr :=
  match pt with
  | void_pointee => inl indirection_through_void_pointer
  | object_pointee => inr {| cat := lvalue_category; denote := fun p _ => p |}
  end.

(** [(T)e], a cast to the non-reference type [T]: always a prvalue, a copy
    of the operand's value. *)
Definition c_cast (T : Type) `{CxxType T} (e : expr) : expr :=
  {| cat := prvalue_category;
     denote := fun p m =>
       match cat e as c return denotes c -> option (list Z) with
       | lvalue_category => fun a => read_bytes a (Z.to_nat (sizeof T)) m
       | prvalue_category => fun bs => bs
       end (denote e p m) |}.

(** [e = v], the built-in assignment (the one a scalar [T] has): the left
    operand must be an lvalue, and the value is stored there. *)
Definition assign (T : Type) `{CxxType T} (e : expr) (v : T)
    : diagnostic + (Z -> memory -> memory) :=
  match e with
  | {| cat := lvalue_category; denote := address |} =>
      inr (fun p m => store T (address p m) v m)
  | {| cat := prvalue_category |} => inl assignment_to_scalar_prvalue
  end.

(** ** Slot configurations *)

(** A [std::function] taking a [void] pointer and returning nothing:
    [None] is the empty callable. *)
Abbreviation callback := (option (Z -> memory -> memory)).

(** [struct scheduling_group_key_config].  Every overload below starts from
    [scheduling_group_key_config sgkc;], whose callbacks are empty, and
    assigns the fields it names: a callback it does not assign is [None]
    in the value returned. *)
Record scheduling_group_key_config : Type := {
  allocation_size : Z;
  alignment : Z;
  constructor : callback;
  destructor : callback
}.

(** [make_scheduling_group_key_config<T, ConstructorArgs...>(args...)],
    [T] not scalar. *)
Definition make_scheduling_group_key_config_class_args (T : Type) {Args : Type}
    `{CxxType T} `{Constructible T Args} `{Destructible T} (args : Args)
    : scheduling_group_key_config :=
  let captured := make_tuple args in
  {| allocation_size := sizeof T;
     alignment := alignof T;
     constructor := Some (fun p => placement_new T p (make_from_tuple T captured));
     destructor := Some (fun p => destroy_at T p) |}.

(** [make_scheduling_group_key_config<T>()], [T] not scalar. *)
Definition make_scheduling_group_key_config_class (T : Type)
    `{CxxType T} `{Constructible T unit} `{Destructible T}
    : scheduling_group_key_config :=
  {| allocation_size := sizeof T;
     alignment := alignof T;
     constructor := Some (fun p => placement_new T p (construct tt));
     destructor := Some (fun p => destroy_at T p) |}.

(** [make_scheduling_group_key_config<T, InitialVal>(initial_val)], [T]
    scalar.  The closure takes a [void] pointer [p] and its body is the
    statement [(T)( *p) = initial_val;].  Instantiating the overload
    instantiates that body: there is a config to return only if the body
    is well-formed. *)
Definition make_scheduling_group_key_config_scalar_init (T : Type) {InitialVal : Type}
    `{CxxType T} `{Convertible InitialVal T} (initial_val : InitialVal)
    : diagnostic + scheduling_group_key_config :=
  match deref void_pointee with
  | inl d => inl d
  | inr star_p =>
      match assign T (c_cast T star_p) (convert initial_val) with
      | inl d => inl d
      | inr body =>
          inr {| allocation_size := sizeof T;
                 alignment := alignof T;
                 constructor := Some body;
                 destructor := None |}
      end
  end.

(** [make_scheduling_group_key_config<T>()], [T] scalar. *)
Definition make_scheduling_group_key_config_scalar (T : Type) `{CxxType T}
    : scheduling_group_key_config :=
  {| allocation_size := sizeof T;
     alignment := alignof T;
     constructor := Some (fun p => memset p 0 (sizeof T));
     destructor := None |}.

(** Running a callback: calling an empty [std::function] throws
    [std::bad_function_call], here [None]. *)
Definition call (f : callback) (p : Z) (m : memory) : option memory :=
  match f with
  | Some g => Some (g p m)
  | None => None
  end.

(** ** Two concrete types *)

(** Little-endian bytes of an integer, and back. *)
Fixpoint le_bytes (n : nat) (v : Z) : list Z :=
  match n with
  | O => []
  | S k => v mod 256 :: le_bytes k (v / 256)
  end.

Fixpoint le_value (bs : list Z) : Z :=
  match bs with
  | [] => 0
  | b :: bs' => b + 256 * le_value bs'
  end.

Definition to_signed (bits u : Z) : Z :=
  if u <? 2 ^ (bits - 1) then u else u - 2 ^ bits.

(** [int]: four bytes, two's complement. *)
#[export] Instance int_type : CxxType Z := {
  sizeof := 4;
  alignof := 4;
  is_scalar := true;
  object_repr := le_bytes 4;
  value_of := fun bs => to_signed 32 (le_value bs)
}.

(** A class with two [int] members, a two-argument and a default
    constructor, and a destructor that clears the members:
    [struct counters { int hits, misses; counters(int, int); counters();
    ~counters(); };] *)
Record counters : Type := { hits : Z; misses : Z }.

#[export] Instance counters_type : CxxType counters := {
  sizeof := 8;
  alignof := 4;
  is_scalar := false;
  object_repr := fun c => le_bytes 4 (hits c) ++ le_bytes 4 (misses c);
  value_of := fun bs =>
    {| hits := to_signed 32 (le_value (take 4 bs));
       misses := to_signed 32 (le_value (drop 4 bs)) |}
}.

#[export] Instance counters_of_pair : Constructible counters (Z * Z) :=
  fun a => {| hits := a.1; misses := a.2 |}.

#[export] Instance counters_default : Constructible counters unit :=
  fun _ => {| hits := 0; misses := 0 |}.

#[export] Instance counters_dtor : Destructible counters :=
  fun p m => write_bytes p (replicate 8 0) m.

(** * Properties *)

Lemma unsigned_fits_size_t (z : Z) : unsigned_range z -> to_size_t z = z.
Proof.
  unfold unsigned_range, to_size_t. intros Hz.
  apply Z.mod_small. split; [lia|].
  apply Z.lt_trans with (2 ^ 32); [lia | reflexivity].
Qed.

Lemma op_eq_spec (a b : scheduling_group) : op_eq a b = true <-> a = b.
Proof.
  destruct a as [i], b as [j]. unfold op_eq. simpl. rewrite Z.eqb_eq.
  split; [intros ->; reflexivity | intros H; injection H; auto].
Qed.

Lemma index_eq_iff (a b : scheduling_group) :
  internal.scheduling_group_index a = internal.scheduling_group_index b <-> a = b.
Proof.
  destruct a as [i], b as [j]. unfold internal.scheduling_group_index. simpl.
  split; [intros ->; reflexivity | intros H; injection H; auto].
Qed.

(** ** Identity *)

(** C9: [max_scheduling_groups()] is the constant 16, a value of its return
    type [unsigned]. *)
Theorem max_scheduling_groups_is_16 :
  max_scheduling_groups = 16 /\ unsigned_range max_scheduling_groups.
Proof.
  split; [reflexivity |].
  unfold unsigned_range, max_scheduling_groups. split; [lia | reflexivity].
Qed.

(** C5: [a == b] holds exactly when the indices are equal; the hash is the
    index widened to [size_t], so equal indices give equal hashes; and two
    identities with equal index are the same value, hence interchangeable on
    either side of a comparison. *)
Theorem equality_and_hash_by_index (a b : scheduling_group) :
  (op_eq a b = true <->
   internal.scheduling_group_index a = internal.scheduling_group_index b) /\
  op_ne a b = negb (op_eq a b) /\
  std.hash a = to_size_t (internal.scheduling_group_index a) /\
  (internal.scheduling_group_index a = internal.scheduling_group_index b ->
   std.hash a = std.hash b /\
   a = b /\
   forall c, op_eq a c = op_eq b c /\ op_eq c a = op_eq c b).
Proof.
  split; [rewrite op_eq_spec, index_eq_iff; tauto |].
  split; [reflexivity |].
  split; [reflexivity |].
  intros Hidx. apply index_eq_iff in Hidx. subst b. auto.
Qed.

(** The hash is a [size_t]. *)
Lemma hash_in_range (sg : scheduling_group) : size_t_range (std.hash sg).
Proof.
  unfold size_t_range, std.hash, to_size_t. apply Z.mod_pos_bound. reflexivity.
Qed.

(** An identity built from an [unsigned] index hashes to that index. *)
Lemma hash_of_index (i : Z) :
  unsigned_range i -> std.hash (internal.scheduling_group_from_index i) = i.
Proof. intros Hi. unfold std.hash. simpl. apply unsigned_fits_size_t, Hi. Qed.

(** C6: the default-constructed identity has index 0, [is_main] tests for
    index 0, and [default_scheduling_group()] is the default-constructed
    identity. *)
Theorem default_group_is_index_zero (sg : scheduling_group) :
  internal.scheduling_group_index scheduling_group_ctor = 0 /\
  (is_main sg = true <-> internal.scheduling_group_index sg = 0) /\
  default_scheduling_group = scheduling_group_ctor /\
  op_eq default_scheduling_group scheduling_group_ctor = true /\
  is_main default_scheduling_group = true.
Proof.
  split; [reflexivity |].
  split; [unfold is_main, internal.scheduling_group_index; apply Z.eqb_eq |].
  repeat split.
Qed.

(** C10: index and from_index are inverse to each other on every [unsigned]
    value; nothing is checked against [max_scheduling_groups()], so an index
    of 16 or more comes back unchanged, outside [0, 16). *)
Theorem index_from_index_round_trip (i : Z) (sg : scheduling_group) :
  unsigned_range i ->
  internal.scheduling_group_index (internal.scheduling_group_from_index i) = i /\
  internal.scheduling_group_from_index (internal.scheduling_group_index sg) = sg /\
  unsigned_range (internal.scheduling_group_index (internal.scheduling_group_from_index i)) /\
  (max_scheduling_groups <= i ->
   ~ (0 <= internal.scheduling_group_index (internal.scheduling_group_from_index i)
        < max_scheduling_groups)).
Proof.
  intros Hi. split; [reflexivity |].
  split; [destruct sg; reflexivity |].
  split; [exact Hi |].
  simpl. lia.
Qed.

Lemma index_from_index_round_trip_witness :
  unsigned_range 4294967295 /\
  internal.scheduling_group_index (internal.scheduling_group_from_index 4294967295)
    = 4294967295 /\
  internal.scheduling_group_from_index
    (internal.scheduling_group_index (scheduling_group_of_id 7)) = scheduling_group_of_id 7.
Proof.
  assert (H : unsigned_range 4294967295) by (unfold unsigned_range; split; [lia | reflexivity]).
  split; [exact H |].
  destruct (index_from_index_round_trip 4294967295 (scheduling_group_of_id 7) H)
    as (H1 & H2 & _).
  split; [exact H1 | exact H2].
Defined.

(** ** The current-group cell *)

Lemma dispatch_other (writes : list (nat * scheduling_group)) (shard : nat) (st : tls) :
  shard ∉ writes.*1 -> dispatch writes st !! shard = st !! shard.
Proof.
  revert st. induction writes as [| [s g] ws IH]; intros st Hnot.
  - reflexivity.
  - rewrite fmap_cons in Hnot. apply not_elem_of_cons in Hnot as [Hne Hws].
    simpl in Hne. unfold dispatch in *. simpl.
    rewrite IH by exact Hws. apply lookup_insert_ne. congruence.
Qed.

(** What the dispatcher writes to a shard's cell is what that shard reads. *)
Lemma current_after_store (shard : nat) (sg : scheduling_group) (st : tls) :
  current_scheduling_group shard
    (sg_store (internal.current_scheduling_group_ptr shard) sg st) = sg.
Proof.
  unfold current_scheduling_group. simpl. rewrite lookup_insert_eq. reflexivity.
Qed.

(** C4: on every shard and in every state of its cell, [sg.active()] is true
    exactly when [sg] is the value [current_scheduling_group()] returns. *)
Theorem active_iff_current (sg : scheduling_group) (shard : nat) (st : tls) :
  (active sg shard st = true <-> sg = current_scheduling_group shard st) /\
  (active sg shard st = true <->
   op_eq sg (current_scheduling_group shard st) = true) /\
  (active sg shard st = false <-> sg <> current_scheduling_group shard st).
Proof.
  unfold active. split; [apply op_eq_spec |]. split; [tauto |].
  rewrite <- op_eq_spec. destruct (op_eq sg _); split; congruence.
Qed.

(** C7: a shard's cell starts as the default identity: as long as no write
    of the dispatcher has gone to that shard's cell, whatever it wrote to
    other shards, [current_scheduling_group()] there is
    [default_scheduling_group()], of index 0. *)
Theorem current_group_starts_default (shard : nat)
    (writes : list (nat * scheduling_group)) :
  shard ∉ writes.*1 ->
  current_scheduling_group shard (dispatch writes ∅) = default_scheduling_group /\
  internal.scheduling_group_index
    (current_scheduling_group shard (dispatch writes ∅)) = 0 /\
  active default_scheduling_group shard (dispatch writes ∅) = true.
Proof.
  intros Hnot.
  assert (Hcur : current_scheduling_group shard (dispatch writes ∅)
                 = default_scheduling_group).
  { unfold current_scheduling_group. simpl.
    rewrite dispatch_other by exact Hnot. rewrite lookup_empty. reflexivity. }
  unfold active. rewrite Hcur. repeat split.
Qed.

Lemma current_group_starts_default_witness :
  current_scheduling_group 0 (dispatch [(1%nat, scheduling_group_of_id 3)] ∅)
    = default_scheduling_group /\
  current_scheduling_group 0 (dispatch [] ∅) = default_scheduling_group.
Proof.
  split.
  - apply (current_group_starts_default 0 [(1%nat, scheduling_group_of_id 3)]).
    simpl. rewrite list_elem_of_singleton. lia.
  - apply (current_group_starts_default 0 []). simpl. apply not_elem_of_nil.
Defined.

(** ** Raw storage *)

Lemma write_bytes_lookup_out (bs : list Z) :
  forall (p : Z) (m : memory) (a : Z),
    ~ (p <= a < p + Z.of_nat (length bs)) ->
    write_bytes p bs m !! a = m !! a.
Proof.
  induction bs as [| b bs IH]; intros p m a Hout; simpl in *.
  - reflexivity.
  - rewrite IH by lia. apply lookup_insert_ne. lia.
Qed.

Lemma write_bytes_lookup_in (bs : list Z) :
  forall (p : Z) (m : memory) (a : Z),
    p <= a < p + Z.of_nat (length bs) ->
    write_bytes p bs m !! a = bs !! Z.to_nat (a - p).
Proof.
  induction bs as [| b bs IH]; intros p m a Hin; simpl in *.
  - lia.
  - destruct (decide (a = p)) as [-> | Hne].
    + rewrite write_bytes_lookup_out by lia. rewrite lookup_insert_eq.
      replace (p - p) with 0 by lia. reflexivity.
    + rewrite IH by lia.
      replace (Z.to_nat (a - p)) with (S (Z.to_nat (a - (p + 1)))) by lia.
      reflexivity.
Qed.

Lemma read_bytes_write_bytes (bs : list Z) :
  forall (p : Z) (m : memory),
    read_bytes p (length bs) (write_bytes p bs m) = Some bs.
Proof.
  induction bs as [| b bs IH]; intros p m; simpl.
  - reflexivity.
  - rewrite write_bytes_lookup_out by lia. rewrite lookup_insert_eq.
    rewrite IH. reflexivity.
Qed.

Lemma memset_lookup_in (s c n : Z) (m : memory) (a : Z) :
  s <= a < s + n -> memset s c n m !! a = Some (c mod 256).
Proof.
  intros Hin. unfold memset.
  rewrite write_bytes_lookup_in by (rewrite length_replicate; lia).
  apply lookup_replicate_2. lia.
Qed.

Lemma memset_lookup_out (s c n : Z) (m : memory) (a : Z) :
  ~ (s <= a < s + n) -> memset s c n m !! a = m !! a.
Proof.
  intros Hout. unfold memset.
  apply write_bytes_lookup_out. rewrite length_replicate. lia.
Qed.

Lemma memset_read_bytes (s c n : Z) (m : memory) :
  read_bytes s (Z.to_nat n) (memset s c n m)
  = Some (replicate (Z.to_nat n) (c mod 256)).
Proof.
  unfold memset.
  rewrite <- (length_replicate (Z.to_nat n) (c mod 256)) at 1.
  apply read_bytes_write_bytes.
Qed.

Lemma load_store (T : Type) `{CxxType T} (p : Z) (v : T) (m : memory) :
  faithful_repr T v -> load T p (store T p v m) = Some v.
Proof.
  intros [Hlen Hval]. unfold load, store.
  rewrite <- Hlen, read_bytes_write_bytes. simpl. rewrite Hval. reflexivity.
Qed.

Lemma le_value_le_bytes (n : nat) :
  forall v : Z, le_value (le_bytes n v) = v mod 256 ^ Z.of_nat n.
Proof.
  induction n as [| k IH]; intros v.
  - simpl. symmetry. apply Z.mod_1_r.
  - cbn [le_bytes le_value]. rewrite IH.
    rewrite Nat2Z.inj_succ, Z.pow_succ_r by lia.
    rewrite Z.rem_mul_r by lia. reflexivity.
Qed.

(** Every value of [int] is stored in four bytes that read back as it. *)
Lemma int_faithful_repr (v : Z) : - 2 ^ 31 <= v < 2 ^ 31 -> faithful_repr Z v.
Proof.
  intros Hv. split; [reflexivity |].
  cbn [value_of object_repr int_type]. rewrite le_value_le_bytes.
  change (256 ^ Z.of_nat 4) with 4294967296.
  unfold to_signed. change (2 ^ (32 - 1)) with 2147483648.
  change (2 ^ 32) with 4294967296. change (2 ^ 31) with 2147483648 in Hv.
  destruct (Z.ltb_spec (v mod 4294967296) 2147483648) as [Hlt | Hge];
    Z.div_mod_to_equations; lia.
Qed.

(** Through a pointer to an object type the statement [*p = v] is
    well-formed and stores: the storage at [p] then reads as [v]. *)
Lemma assign_through_object_pointer (T : Type) `{CxxType T} (p : Z) (v : T)
    (m : memory) :
  faithful_repr T v ->
  exists (star_p : expr) (body : Z -> memory -> memory),
    deref object_pointee = inr star_p /\
    assign T star_p v = inr body /\
    load T p (body p m) = Some v.
Proof.
  intros Hv. eexists. eexists.
  split; [reflexivity |]. split; [reflexivity |].
  apply (load_store T p v m Hv).
Qed.

(** The result of a cast is no lvalue: assigning to it is ill-formed,
    whatever was cast. *)
Lemma assign_to_cast (T : Type) `{CxxType T} (e : expr) (v : T) :
  assign T (c_cast T e) v = inl assignment_to_scalar_prvalue.
Proof. reflexivity. Qed.

(** ** Slot configurations *)

(** C1: the initial-value overload has no instance: for every [T] and
    initial value the closure body is rejected, at the indirection through
    the [void] pointer, so no config is returned and no constructor exists
    that could assign the value; with the indirection put right the body
    would still be rejected, at the assignment to the result of the cast. *)
Theorem scalar_init_overload_ill_formed (T InitialVal : Type) `{CxxType T}
    `{Convertible InitialVal T} (initial_val : InitialVal) :
  make_scheduling_group_key_config_scalar_init T initial_val
  = inl indirection_through_void_pointer /\
  (forall cfg : scheduling_group_key_config,
     make_scheduling_group_key_config_scalar_init T initial_val <> inr cfg) /\
  (forall star_p : expr,
     assign T (c_cast T star_p) (convert initial_val)
     = inl assignment_to_scalar_prvalue).
Proof.
  split; [reflexivity |]. split.
  - intros cfg Hcfg. discriminate Hcfg.
  - intros star_p. apply assign_to_cast.
Qed.

(** C2: the zero-argument scalar overload records [sizeof(T)] and
    [alignof(T)], and its constructor sets the [sizeof(T)] bytes from the
    given address to zero and no other byte. *)
Theorem scalar_zero_config (T : Type) `{CxxType T} (p : Z) (m : memory) :
  is_scalar T = true ->
  allocation_size (make_scheduling_group_key_config_scalar T) = sizeof T /\
  alignment (make_scheduling_group_key_config_scalar T) = alignof T /\
  exists m' : memory,
    call (constructor (make_scheduling_group_key_config_scalar T)) p m = Some m' /\
    (forall a, p <= a < p + sizeof T -> m' !! a = Some 0) /\
    (forall a, ~ (p <= a < p + sizeof T) -> m' !! a = m !! a) /\
    read_bytes p (Z.to_nat (sizeof T)) m' = Some (replicate (Z.to_nat (sizeof T)) 0).
Proof.
  intros _. split; [reflexivity |]. split; [reflexivity |].
  exists (memset p 0 (sizeof T) m). split; [reflexivity |].
  split; [| split].
  - intros a Ha. apply (memset_lookup_in p 0 (sizeof T) m a Ha).
  - intros a Ha. apply memset_lookup_out, Ha.
  - apply (memset_read_bytes p 0 (sizeof T) m).
Qed.

(** An [int] slot set up by the zero-argument overload reads as 0. *)
Example scalar_zero_int_reads_zero :
  (call (constructor (make_scheduling_group_key_config_scalar Z)) 4096 ∅
     ≫= load Z 4096) = Some 0.
Proof. vm_compute. reflexivity. Qed.

Lemma scalar_zero_config_witness :
  is_scalar Z = true /\
  allocation_size (make_scheduling_group_key_config_scalar Z) = 4 /\
  exists m' : memory,
    call (constructor (make_scheduling_group_key_config_scalar Z)) 4096 ∅ = Some m' /\
    m' !! 4099 = Some 0 /\ m' !! 4100 = None.
Proof.
  assert (Hscalar : is_scalar Z = true) by reflexivity.
  split; [exact Hscalar |].
  destruct (scalar_zero_config Z 4096 ∅ Hscalar) as (Hsize & _ & m' & Hcall & Hin & Hout & _).
  split; [exact Hsize |].
  exists m'. split; [exact Hcall |]. split.
  - apply Hin. simpl. lia.
  - rewrite Hout by (simpl; lia). apply lookup_empty.
Defined.

(** C8: the zero-argument scalar overload installs no destructor: the
    field stays the empty callable, and calling it is an error.  The
    initial-value overload returns no config at all, for any [T] and
    initial value, so there is none whose destructor is unset. *)
Theorem scalar_init_overload_has_no_config (T InitialVal : Type) `{CxxType T}
    `{Convertible InitialVal T} (initial_val : InitialVal) (p : Z) (m : memory) :
  destructor (make_scheduling_group_key_config_scalar T) = None /\
  call (destructor (make_scheduling_group_key_config_scalar T)) p m = None /\
  ~ (exists cfg : scheduling_group_key_config,
       make_scheduling_group_key_config_scalar_init T initial_val = inr cfg /\
       destructor cfg = None).
Proof.
  split; [reflexivity |]. split; [reflexivity |].
  intros (cfg & Hcfg & _). discriminate Hcfg.
Qed.

(** C3: for a class type, both overloads record [sizeof(T)] and
    [alignof(T)]; the constructor closure builds, at the address it is
    given, the [T] constructed from the captured arguments (from no
    argument in the zero-argument overload), which is then what the storage
    holds; the destructor closure runs [T]'s destructor at that address. *)
Theorem class_config (T Args : Type) `{CxxType T} {CA : Constructible T Args}
    {CU : Constructible T unit} `{Destructible T} (args : Args) (p : Z) (m : memory) :
  is_scalar T = false ->
  let cfg := make_scheduling_group_key_config_class_args T args in
  let cfg0 := make_scheduling_group_key_config_class T in
  (allocation_size cfg = sizeof T /\ alignment cfg = alignof T /\
   call (constructor cfg) p m = Some (placement_new T p (construct args) m) /\
   call (destructor cfg) p m = Some (destroy_at T p m) /\
   (faithful_repr T (construct args) ->
    (call (constructor cfg) p m ≫= load T p) = Some (construct args))) /\
  (allocation_size cfg0 = sizeof T /\ alignment cfg0 = alignof T /\
   call (constructor cfg0) p m = Some (placement_new T p (construct tt) m) /\
   call (destructor cfg0) p m = Some (destroy_at T p m) /\
   (faithful_repr T (construct tt) ->
    (call (constructor cfg0) p m ≫= load T p) = Some (construct tt))).
Proof.
  intros _ cfg cfg0. split.
  - repeat (split; [reflexivity |]).
    intros Hv. simpl. apply (load_store T p (construct args) m Hv).
  - repeat (split; [reflexivity |]).
    intros Hv. simpl. apply (load_store T p (construct tt) m Hv).
Qed.

Lemma class_config_witness :
  is_scalar counters = false /\
  allocation_size (make_scheduling_group_key_config_class_args counters (3, -2)) = 8 /\
  (call (constructor (make_scheduling_group_key_config_class_args counters (3, -2)))
     4096 ∅ ≫= load counters 4096) = Some {| hits := 3; misses := -2 |} /\
  (call (constructor (make_scheduling_group_key_config_class counters))
     4096 ∅ ≫= load counters 4096) = Some {| hits := 0; misses := 0 |}.
Proof.
  assert (Hclass : is_scalar counters = false) by reflexivity.
  split; [exact Hclass |].
  destruct (class_config counters (Z * Z) (3, -2) 4096 ∅ Hclass)
    as ((Hsize & _ & _ & _ & Hargs) & (_ & _ & _ & _ & Hdef)).
  split; [exact Hsize |]. split.
  - apply Hargs. split; reflexivity.
  - apply Hdef. split; reflexivity.
Defined.

(** * Further properties of the identity *)

(** X1: on an identity whose index is an [unsigned] value, the hash is the
    index itself (the widening to [size_t] loses nothing), so two such
    identities have the same hash exactly when [operator==] holds. *)
Theorem hash_is_index_and_injective (a b : scheduling_group) :
  unsigned_range (internal.scheduling_group_index a) ->
  unsigned_range (internal.scheduling_group_index b) ->
  std.hash a = internal.scheduling_group_index a /\
  unsigned_range (std.hash a) /\
  (std.hash a = std.hash b <-> op_eq a b = true).
Proof.
  intros Ha Hb.
  assert (Hha : std.hash a = internal.scheduling_group_index a)
    by (apply unsigned_fits_size_t, Ha).
  assert (Hhb : std.hash b = internal.scheduling_group_index b)
    by (apply unsigned_fits_size_t, Hb).
  split; [exact Hha |]. split; [rewrite Hha; exact Ha |].
  rewrite Hha, Hhb, op_eq_spec, index_eq_iff. tauto.
Qed.

Lemma hash_is_index_and_injective_witness :
  std.hash (internal.scheduling_group_from_index 15) = 15 /\
  (std.hash (internal.scheduling_group_from_index 15)
   = std.hash (internal.scheduling_group_from_index 4294967295) <->
   op_eq (internal.scheduling_group_from_index 15)
         (internal.scheduling_group_from_index 4294967295) = true).
Proof.
  assert (H15 : unsigned_range 15) by (unfold unsigned_range; split; [lia | reflexivity]).
  assert (Hmax : unsigned_range 4294967295)
    by (unfold unsigned_range; split; [lia | reflexivity]).
  destruct (hash_is_index_and_injective
              (internal.scheduling_group_from_index 15)
              (internal.scheduling_group_from_index 4294967295) H15 Hmax)
    as (Hh & _ & Hiff).
  split; [exact Hh | exact Hiff].
Defined.

(** X2: [operator==] is an equivalence relation on identities, and
    [operator!=] is true exactly on the pairs [operator==] rejects. *)
Theorem op_eq_equivalence (a b c : scheduling_group) :
  op_eq a a = true /\
  op_eq a b = op_eq b a /\
  (op_eq a b = true /\ op_eq b c = true -> op_eq a c = true) /\
  op_ne a a = false /\
  op_ne a b = op_ne b a /\
  (op_ne a b = true <-> op_eq a b = false) /\
  (op_ne a b = true <-> a <> b).
Proof.
  unfold op_ne, op_eq.
  split; [apply Z.eqb_refl |].
  split; [apply Z.eqb_sym |].
  split; [intros [H1 H2]; apply Z.eqb_eq in H1, H2; apply Z.eqb_eq; congruence |].
  split; [rewrite Z.eqb_refl; reflexivity |].
  split; [rewrite Z.eqb_sym; reflexivity |].
  split; [apply negb_true_iff |].
  rewrite negb_true_iff, Z.eqb_neq. rewrite <- index_eq_iff. reflexivity.
Qed.

(** X3: [is_main()] is equality with [default_scheduling_group()]; an
    identity made by [scheduling_group_from_index] from an [unsigned] index
    is the main group exactly for index 0, and index 0 gives the default
    group. *)
Theorem is_main_iff_default (sg : scheduling_group) (i : Z) :
  unsigned_range i ->
  is_main sg = op_eq sg default_scheduling_group /\
  (is_main sg = true <-> sg = default_scheduling_group) /\
  (is_main (internal.scheduling_group_from_index i) = true <-> i = 0) /\
  internal.scheduling_group_from_index 0 = default_scheduling_group.
Proof.
  intros _.
  split; [reflexivity |].
  split; [apply (op_eq_spec sg default_scheduling_group) |].
  split; [apply Z.eqb_eq | reflexivity].
Qed.

Lemma is_main_iff_default_witness :
  unsigned_range 4294967295 /\
  (is_main (internal.scheduling_group_from_index 4294967295) = true
   <-> 4294967295 = 0) /\
  (is_main (internal.scheduling_group_from_index 7) = true
   <-> internal.scheduling_group_from_index 7 = default_scheduling_group).
Proof.
  assert (Hmax : unsigned_range 4294967295)
    by (unfold unsigned_range; split; [lia | reflexivity]).
  split; [exact Hmax |].
  destruct (is_main_iff_default (internal.scheduling_group_from_index 7)
              4294967295 Hmax) as (_ & Hsg & Hi & _).
  split; [exact Hi | exact Hsg].
Defined.

Lemma from_index_inj_unsigned (i j : Z) :
  unsigned_range i -> unsigned_range j ->
  internal.scheduling_group_from_index i = internal.scheduling_group_from_index j ->
  i = j.
Proof. intros _ _ Hij. injection Hij. auto. Qed.

Lemma max_groups_unsigned (i : Z) :
  i ∈ seqZ 0 max_scheduling_groups -> unsigned_range i.
Proof.
  rewrite elem_of_seqZ. unfold max_scheduling_groups, unsigned_range.
  intros Hi. split; [lia |].
  apply Z.lt_trans with 16; [lia | reflexivity].
Qed.

(** X4: different [unsigned] indices give different identities, so the
    indices below [max_scheduling_groups()] name that many pairwise
    different groups, of which only the first is the main group. *)
Theorem from_index_distinct (i j : Z) :
  unsigned_range i ->
  unsigned_range j ->
  (internal.scheduling_group_from_index i = internal.scheduling_group_from_index j
   <-> i = j) /\
  op_eq (internal.scheduling_group_from_index i)
        (internal.scheduling_group_from_index j) = (i =? j) /\
  NoDup (internal.scheduling_group_from_index <$> seqZ 0 max_scheduling_groups) /\
  length (internal.scheduling_group_from_index <$> seqZ 0 max_scheduling_groups) = 16%nat /\
  filter (fun sg => is_main sg = true)
    (internal.scheduling_group_from_index <$> seqZ 0 max_scheduling_groups)
  = [default_scheduling_group].
Proof.
  intros Hi Hj.
  split; [split; [apply from_index_inj_unsigned; assumption | intros ->; reflexivity] |].
  split; [reflexivity |].
  split.
  - apply NoDup_fmap_2_strong; [| apply NoDup_seqZ].
    intros x y Hx Hy. apply from_index_inj_unsigned; apply max_groups_unsigned; assumption.
  - split; reflexivity.
Qed.

Lemma from_index_distinct_witness :
  unsigned_range 3 /\ unsigned_range 4294967295 /\
  (internal.scheduling_group_from_index 3
   = internal.scheduling_group_from_index 4294967295 <-> 3 = 4294967295) /\
  op_eq (internal.scheduling_group_from_index 3)
        (internal.scheduling_group_from_index 4294967295) = false.
Proof.
  assert (H3 : unsigned_range 3) by (unfold unsigned_range; split; [lia | reflexivity]).
  assert (Hmax : unsigned_range 4294967295)
    by (unfold unsigned_range; split; [lia | reflexivity]).
  split; [exact H3 |]. split; [exact Hmax |].
  destruct (from_index_distinct 3 4294967295 H3 Hmax) as (Hiff & Heq & _).
  split; [exact Hiff | exact Heq].
Defined.

(** * Further properties of the current-group cell *)

Lemma dispatch_snoc (writes : list (nat * scheduling_group))
    (w : nat * scheduling_group) (st : tls) :
  dispatch (writes ++ [w]) st = sg_store (tls_sg w.1) w.2 (dispatch writes st).
Proof. unfold dispatch. rewrite foldl_snoc. reflexivity. Qed.

Lemma current_store_other (shard shard' : nat) (sg : scheduling_group) (st : tls) :
  shard' <> shard ->
  current_scheduling_group shard'
    (sg_store (internal.current_scheduling_group_ptr shard) sg st)
  = current_scheduling_group shard' st.
Proof.
  intros Hne. unfold current_scheduling_group. simpl.
  rewrite lookup_insert_ne by congruence. reflexivity.
Qed.

(** X5: on every shard and in every state exactly one identity is active:
    the one [current_scheduling_group()] returns is, and any two active
    identities are the same. *)
Theorem exactly_one_active (shard : nat) (st : tls) (a b : scheduling_group) :
  active (current_scheduling_group shard st) shard st = true /\
  (active a shard st = true /\ active b shard st = true -> a = b) /\
  (a <> b -> active a shard st = false \/ active b shard st = false).
Proof.
  unfold active. split; [apply op_eq_spec; reflexivity |]. split.
  - intros [Ha Hb]. apply op_eq_spec in Ha, Hb. congruence.
  - intros Hne.
    destruct (op_eq a (current_scheduling_group shard st)) eqn:Ha; [| left; reflexivity].
    destruct (op_eq b (current_scheduling_group shard st)) eqn:Hb; [| right; reflexivity].
    apply op_eq_spec in Ha, Hb. congruence.
Qed.

(** X6: after any run of writes through the pointers
    [current_scheduling_group_ptr()] returns, a shard's current group is the
    value of the last write made on that shard, and is what it was before
    the run when none was made there. *)
Theorem current_is_last_write (shard : nat)
    (writes : list (nat * scheduling_group)) (st : tls) :
  current_scheduling_group shard (dispatch writes st)
  = default (current_scheduling_group shard st)
      (snd <$> last (filter (fun w => w.1 = shard) writes)).
Proof.
  induction writes as [| w ws IH] using rev_ind.
  - reflexivity.
  - rewrite dispatch_snoc, filter_app.
    destruct (decide (w.1 = shard)) as [Heq | Hne].
    + rewrite (filter_cons_True _ w []) by exact Heq.
      rewrite filter_nil, last_snoc. simpl. subst shard.
      apply current_after_store.
    + rewrite (filter_cons_False _ w []) by exact Hne.
      rewrite filter_nil, app_nil_r, <- IH.
      apply current_store_other. congruence.
Qed.

(** X7: setting a shard's current group and then storing back the value it
    had gives every shard the current group, and every identity the
    [active()] answer, it had before; in between, only that shard sees the
    new group. *)
Theorem set_and_restore (shard shard' : nat) (sg g : scheduling_group) (st : tls) :
  let p := internal.current_scheduling_group_ptr shard in
  let prev := current_scheduling_group shard st in
  current_scheduling_group shard (sg_store p sg st) = sg /\
  (shard' <> shard ->
   current_scheduling_group shard' (sg_store p sg st)
   = current_scheduling_group shard' st) /\
  current_scheduling_group shard' (sg_store p prev (sg_store p sg st))
  = current_scheduling_group shard' st /\
  active g shard' (sg_store p prev (sg_store p sg st)) = active g shard' st.
Proof.
  intros p prev.
  assert (Hback : current_scheduling_group shard' (sg_store p prev (sg_store p sg st))
                  = current_scheduling_group shard' st).
  { destruct (decide (shard' = shard)) as [-> | Hne].
    - apply current_after_store.
    - unfold p. rewrite !current_store_other by exact Hne. reflexivity. }
  split; [apply current_after_store |].
  split; [apply current_store_other |].
  split; [exact Hback |].
  unfold active. rewrite Hback. reflexivity.
Qed.

(** X8: on a shard whose cell has not been written yet, [sg.active()] and
    [sg.is_main()] agree for every identity. *)
Theorem active_is_main_before_first_write (shard : nat)
    (writes : list (nat * scheduling_group)) (sg : scheduling_group) :
  shard ∉ writes.*1 ->
  active sg shard (dispatch writes ∅) = is_main sg.
Proof.
  intros Hnot. unfold active, current_scheduling_group. simpl.
  rewrite dispatch_other by exact Hnot. rewrite lookup_empty. reflexivity.
Qed.

Lemma active_is_main_before_first_write_witness :
  active (internal.scheduling_group_from_index 3) 0
    (dispatch [(1%nat, internal.scheduling_group_from_index 3)] ∅)
  = is_main (internal.scheduling_group_from_index 3).
Proof.
  apply (active_is_main_before_first_write 0
           [(1%nat, internal.scheduling_group_from_index 3)]).
  simpl. rewrite list_elem_of_singleton. lia.
Defined.

(** * Further properties of the slot constructors *)

Lemma read_bytes_ext (n : nat) :
  forall (p : Z) (m1 m2 : memory),
    (forall a, p <= a < p + Z.of_nat n -> m1 !! a = m2 !! a) ->
    read_bytes p n m1 = read_bytes p n m2.
Proof.
  induction n as [| k IH]; intros p m1 m2 Hsame.
  - reflexivity.
  - cbn [read_bytes]. rewrite (Hsame p) by lia.
    rewrite (IH (p + 1) m1 m2); [reflexivity |].
    intros a Ha. apply Hsame. lia.
Qed.

Lemma load_memset_disjoint (U : Type) `{CxxType U} (q p c n : Z) (m : memory) :
  q + sizeof U <= p \/ p + n <= q ->
  load U q (memset p c n m) = load U q m.
Proof.
  intros Hdisj. unfold load. f_equal.
  apply read_bytes_ext. intros a Ha.
  apply memset_lookup_out. lia.
Qed.

(** X9: the zero-argument scalar constructor may run again, and may run in
    either order with that of another scalar slot, overlapping or not: the
    storage ends up the same. *)
Theorem scalar_zero_constructor_idempotent (T U : Type) `{CxxType T} `{CxxType U}
    (p q : Z) (m : memory) :
  is_scalar T = true ->
  is_scalar U = true ->
  (call (constructor (make_scheduling_group_key_config_scalar T)) p m
     ≫= call (constructor (make_scheduling_group_key_config_scalar T)) p)
  = call (constructor (make_scheduling_group_key_config_scalar T)) p m /\
  (call (constructor (make_scheduling_group_key_config_scalar T)) p m
     ≫= call (constructor (make_scheduling_group_key_config_scalar U)) q)
  = (call (constructor (make_scheduling_group_key_config_scalar U)) q m
     ≫= call (constructor (make_scheduling_group_key_config_scalar T)) p).
Proof.
  intros _ _. simpl. split; f_equal; apply map_eq; intros a.
  - destruct (decide (p <= a < p + sizeof T)) as [Hin | Hout].
    + rewrite !memset_lookup_in by exact Hin. reflexivity.
    + rewrite memset_lookup_out by exact Hout. reflexivity.
  - destruct (decide (p <= a < p + sizeof T)) as [HinT | HoutT];
      destruct (decide (q <= a < q + sizeof U)) as [HinU | HoutU].
    + rewrite (memset_lookup_in q) by exact HinU.
      rewrite (memset_lookup_in p) by exact HinT. reflexivity.
    + rewrite (memset_lookup_out q) by exact HoutU.
      rewrite !(memset_lookup_in p) by exact HinT. reflexivity.
    + rewrite !(memset_lookup_in q) by exact HinU.
      rewrite (memset_lookup_out p) by exact HoutT.
      rewrite (memset_lookup_in q) by exact HinU. reflexivity.
    + rewrite (memset_lookup_out q) by exact HoutU.
      rewrite !(memset_lookup_out p) by exact HoutT.
      rewrite (memset_lookup_out q) by exact HoutU. reflexivity.
Qed.

Lemma scalar_zero_constructor_idempotent_witness :
  (call (constructor (make_scheduling_group_key_config_scalar Z)) 4096 ∅
     ≫= call (constructor (make_scheduling_group_key_config_scalar Z)) 4096)
  = call (constructor (make_scheduling_group_key_config_scalar Z)) 4096 ∅ /\
  (call (constructor (make_scheduling_group_key_config_scalar Z)) 4096 ∅
     ≫= call (constructor (make_scheduling_group_key_config_scalar Z)) 4098)
  = (call (constructor (make_scheduling_group_key_config_scalar Z)) 4098 ∅
     ≫= call (constructor (make_scheduling_group_key_config_scalar Z)) 4096).
Proof.
  assert (Hscalar : is_scalar Z = true) by reflexivity.
  exact (scalar_zero_constructor_idempotent Z Z 4096 4098 ∅ Hscalar Hscalar).
Defined.

(** X10: the zero-argument scalar constructor leaves every object outside
    the slot as it is: a [U] stored in a range disjoint from the
    [sizeof(T)] bytes at [p] reads the same before and after. *)
Theorem scalar_zero_constructor_frame (T U : Type) `{CxxType T} `{CxxType U}
    (p q : Z) (m : memory) :
  is_scalar T = true ->
  q + sizeof U <= p \/ p + sizeof T <= q ->
  (call (constructor (make_scheduling_group_key_config_scalar T)) p m ≫= load U q)
  = load U q m.
Proof.
  intros _ Hdisj. simpl. apply load_memset_disjoint, Hdisj.
Qed.

Lemma scalar_zero_constructor_frame_witness :
  (call (constructor (make_scheduling_group_key_config_scalar Z)) 4096
     (store Z 4100 (-7) ∅) ≫= load Z 4100) = Some (-7).
Proof.
  assert (Hscalar : is_scalar Z = true) by reflexivity.
  assert (Hdisj : 4100 + sizeof Z <= 4096 \/ 4096 + sizeof Z <= 4100)
    by (right; simpl; lia).
  rewrite (scalar_zero_constructor_frame Z Z 4096 4100 (store Z 4100 (-7) ∅)
             Hscalar Hdisj).
  vm_compute. reflexivity.
Defined.

(** X11: a class slot keeps the object its constructor built when the
    zero-argument constructor of a scalar slot in disjoint storage runs
    after it. *)
Theorem class_slot_survives_scalar_slot (T U Args : Type) `{CxxType T} `{CxxType U}
    `{Constructible U Args} `{Destructible U} (args : Args) (p q : Z) (m : memory) :
  is_scalar T = true ->
  is_scalar U = false ->
  faithful_repr U (construct args) ->
  q + sizeof U <= p \/ p + sizeof T <= q ->
  ((call (constructor (make_scheduling_group_key_config_class_args U args)) q m
      ≫= call (constructor (make_scheduling_group_key_config_scalar T)) p)
     ≫= load U q)
  = Some (construct args).
Proof.
  intros _ _ Hv Hdisj. simpl.
  rewrite load_memset_disjoint by exact Hdisj.
  apply (load_store U q (construct args) m Hv).
Qed.

Lemma class_slot_survives_scalar_slot_witness :
  ((call (constructor (make_scheduling_group_key_config_class_args counters (3, -2)))
      4096 ∅
      ≫= call (constructor (make_scheduling_group_key_config_scalar Z)) 4104)
     ≫= load counters 4096)
  = Some {| hits := 3; misses := -2 |}.
Proof.
  assert (Hscalar : is_scalar Z = true) by reflexivity.
  assert (Hclass : is_scalar counters = false) by reflexivity.
  assert (Hv : faithful_repr counters (construct (3, -2))) by (split; reflexivity).
  assert (Hdisj : 4096 + sizeof counters <= 4104 \/ 4104 + sizeof Z <= 4096)
    by (left; simpl; lia).
  exact (class_slot_survives_scalar_slot Z counters (Z * Z) (3, -2) 4104 4096 ∅
           Hscalar Hclass Hv Hdisj).
Defined.
